(** * mrner: building a token trie from a Marine Regions export

    A shallow embedding of [build_trie.py] and the properties of its two
    phases: the entity loader [read_mr_entities] and the trie builder
    [build_trie].

    Conventions of the embedding.
    - The program is read as Python 3.  A [str] is a [string]; each [ascii]
      stands for the code point of the same number (0..255).
    - A Python [set] of strings is a [gset string], a [dict] keyed by
      tokens is a [gmap string _].
    - The logger is the list of the records handed to it, oldest first.
    - Objects that the code mutates in place (the [ids] list and the
      [children] dict of every [Node]) live in a store indexed by node
      address; a variable holding a node holds its address. *)

From Stdlib Require Import Ascii String List Arith Lia.
From stdpp Require Import base option list gmap strings pretty.

Local Open Scope string_scope.
Local Open Scope list_scope.

(** * Part I: the program *)

(** ** Characters and strings *)

Definition TAB : ascii := "009"%char.
Definition LF : ascii := "010"%char.

(** [str.isspace] of one character, for the code points below 256. *)
Definition isspace (c : ascii) : bool :=
  let n := nat_of_ascii c in
  (((9 <=? n) && (n <=? 13)) || ((28 <=? n) && (n <=? 31))
   || (n =? 32) || (n =? 133) || (n =? 160))%nat.

Definition ascii_eqb (a b : ascii) : bool := Ascii.eqb a b.

(** [s.rstrip(chars)] for a one-character [chars]: every trailing
    occurrence of [c] is removed. *)
Fixpoint rstrip (c : ascii) (s : string) : string :=
  match s with
  | EmptyString => EmptyString
  | String a rest =>
      match rstrip c rest with
      | EmptyString => if ascii_eqb a c then EmptyString else String a EmptyString
      | r => String a r
      end
  end.

(** [s.split(sep)] for a one-character separator: the fields between the
    occurrences of [sep]; the result is never empty. *)
Fixpoint split_on (sep : ascii) (s : string) : list string :=
  match s with
  | EmptyString => [EmptyString]
  | String a rest =>
      if ascii_eqb a sep then EmptyString :: split_on sep rest
      else match split_on sep rest with
           | [] => [String a EmptyString]
           | f :: fs => String a f :: fs
           end
  end.

(** [s.split()] without argument: the maximal runs of non-whitespace
    characters.  [cur] is the word being read. *)
Fixpoint split_ws_from (cur : string) (s : string) : list string :=
  match s with
  | EmptyString => match cur with EmptyString => [] | _ => [cur] end
  | String a rest =>
      if isspace a then
        match cur with
        | EmptyString => split_ws_from EmptyString rest
        | _ => cur :: split_ws_from EmptyString rest
        end
      else split_ws_from (cur +:+ String a EmptyString) rest
  end.

Definition split_ws (s : string) : list string := split_ws_from EmptyString s.

(** Iterating over a text file.  [text] is what text mode delivers: the
    decoded characters, every line end already a single line feed.  The
    text is cut after every line feed, and each line keeps its line feed
    (the last line may lack one). *)
Fixpoint readlines (text : string) : list string :=
  match text with
  | EmptyString => []
  | String a rest =>
      if ascii_eqb a LF then String a EmptyString :: readlines rest
      else match readlines rest with
           | [] => [String a EmptyString]
           | l :: ls => String a l :: ls
           end
  end.

(** ** Regular expressions

    The fragment of [re] syntax that the module's pattern uses. *)

Inductive regex : Type :=
| Bol                                   (* ^ *)
| Eol                                   (* $ *)
| CharSet (ranges : list (ascii * ascii)) (* [a-bc-d] *)
| Cat (r1 r2 : regex)
| Star (r : regex)                      (* r* *)
| Plus (r : regex).                     (* r+ *)

Definition in_range (rg : ascii * ascii) (c : ascii) : bool :=
  ((nat_of_ascii (fst rg) <=? nat_of_ascii c)
   && (nat_of_ascii c <=? nat_of_ascii (snd rg)))%nat.

Definition in_set (ranges : list (ascii * ascii)) (c : ascii) : bool :=
  existsb (fun rg => in_range rg c) ranges.

(** A continuation of the matcher receives the position reached and the
    text that is left. *)
Definition cont : Type := nat -> string -> bool.

(** Repetition of the matcher [m].  A round that consumes nothing ends the
    repetition, so [fuel] = length of the text left is enough. *)
Fixpoint star_loop (m : nat -> string -> cont -> bool) (fuel : nat)
    (pos : nat) (s : string) (k : cont) : bool :=
  match fuel with
  | 0 => k pos s
  | S fuel' =>
      m pos s (fun pos' s' =>
                 (String.length s' <? String.length s)%nat && star_loop m fuel' pos' s' k)
      || k pos s
  end.

Fixpoint re_run (r : regex) (pos : nat) (s : string) (k : cont) : bool :=
  match r with
  | Bol => (pos =? 0)%nat && k pos s
  | Eol =>
      match s with
      | EmptyString => k pos s
      | String a EmptyString => ascii_eqb a LF && k pos s
      | _ => false
      end
  | CharSet ranges =>
      match s with
      | String a rest => in_set ranges a && k (S pos) rest
      | EmptyString => false
      end
  | Cat r1 r2 => re_run r1 pos s (fun pos' s' => re_run r2 pos' s' k)
  | Star r1 => star_loop (re_run r1) (String.length s) pos s k
  | Plus r1 =>
      re_run r1 pos s (fun pos' s' => star_loop (re_run r1) (String.length s') pos' s' k)
  end.

(** [re.compile(pat).match(s)] as a truth value: the pattern matches a
    prefix of [s]. *)
Definition re_match (pat : regex) (s : string) : bool :=
  re_run pat 0 s (fun _ _ => true).

(** ** Module constants *)

Definition SKIPPED_PLACE_TYPES : gset string :=
  {[ "ICES Statistical Rectangles"; "FAO Subdivisions"; "NAFO Area"; "ICES Areas" ]}.

Definition SKIPPED_GEO_NAMES : gset string := {[ "As"; "Of" ]}.

Definition upper : ascii * ascii := ("A"%char, "Z"%char).
Definition digit : ascii * ascii := ("0"%char, "9"%char).

(** ^[A-Z]+[0-9][A-Z0-9]*$ *)
Definition SKIPPED_GEO_NAMES_PAT : regex :=
  Cat Bol
    (Cat (Plus (CharSet [upper]))
       (Cat (CharSet [digit])
          (Cat (Star (CharSet [upper; digit])) Eol))).

(** ** Entities and the logger *)

Record Entity : Type := mkEntity { tokens : list string; id : string }.

Inductive level : Type := DEBUG | INFO | WARNING.

Definition logger : Type := list (level * string).

Definition emit (lv : level) (msg : string) (lg : logger) : logger := lg ++ [(lv, msg)].

(** ** The entity loader *)

Record loader : Type := mkLoader { entities : list Entity; log : logger }.

Definition log_to (lv : level) (msg : string) (st : loader) : loader :=
  {| entities := entities st; log := emit lv msg (log st) |}.

Definition append_entity (e : Entity) (st : loader) : loader :=
  {| entities := entities st ++ [e]; log := log st |}.

Section Loader.
Variable skipped_geo_names : gset string.
Variable skipped_geo_names_pat : regex.
Variable skipped_place_types : gset string.

(** The body of [for line in f]. *)
Definition loop_body (st : loader) (line : string) : loader :=
  let line := rstrip LF line in
  match split_on TAB line with
  | [mrgid; geo_name; language; place_type] =>
      if bool_decide (place_type ∈ skipped_place_types)
         || bool_decide (geo_name ∈ skipped_geo_names)
         || re_match skipped_geo_names_pat geo_name
      then log_to DEBUG ("skipping: " +:+ line) st
      else append_entity (mkEntity (split_ws geo_name) mrgid) st
  | _ => log_to WARNING ("ill-formed line: " +:+ line) st
  end.

Definition read_lines (lines : list string) (st : loader) : loader :=
  fold_left loop_body lines st.

(** [fs] maps the name of every readable file to its text.  Opening a
    file that is not there raises, and the exception leaves the function:
    the result is then [None]. *)
Definition read_mr_entities (fs : gmap string string) (csv_fname : string)
    (lg : logger) : logger * option (list Entity) :=
  let lg := emit INFO ("reading entities from file " +:+ csv_fname) lg in
  match fs !! csv_fname with
  | None => (lg, None)
  | Some text =>
      (* f.readline() takes the header away *)
      let st := read_lines (tail (readlines text)) {| entities := []; log := lg |} in
      (emit INFO (pretty (length (entities st)) +:+ " entites") (log st),
       Some (entities st))
  end.
End Loader.

(** ** The trie builder *)

(** A node of the trie.  [children] maps a token to the address of the
    child node. *)
Record Node : Type := mkNode { ids : list string; children : gmap string nat }.

#[global] Instance Node_inhabited : Inhabited Node := populate (mkNode [] ∅).

(** The store of the builder: cell [a] of [heap] is the node at address
    [a]; a node is allocated at the end and never freed. *)
Record builder : Type :=
  mkBuilder { heap : list Node; node_count : nat; token_count : nat }.

(** [node.children[token] = new_node] *)
Definition set_child (token : string) (child : nat) (nd : Node) : Node :=
  {| ids := ids nd; children := <[token := child]> (children nd) |}.

(** [node.ids.append(id)] *)
Definition append_id (i : string) (nd : Node) : Node :=
  {| ids := ids nd ++ [i]; children := children nd |}.

(** The loop [for token in tokens], started with the variable [node] at
    address [node]; returns the final value of [node]. *)
Fixpoint for_token (toks : list string) (node : nat) (st : builder) : nat * builder :=
  match toks with
  | [] => (node, st)
  | token :: rest =>
      match children (heap st !!! node) !! token with
      | Some child => for_token rest child st
      | None =>
          (* except KeyError *)
          let new_node := length (heap st) in
          let h := heap st ++ [mkNode [] ∅] in
          let h := alter (set_child token new_node) node h in
          for_token rest new_node
            {| heap := h; node_count := S (node_count st); token_count := token_count st |}
      end
  end.

(** The body of [for tokens, id in entities]; the trie is the node at
    address [trie]. *)
Definition for_entity (trie : nat) (st : builder) (e : Entity) : builder :=
  let st := {| heap := heap st; node_count := node_count st;
               token_count := token_count st + length (tokens e) |} in
  let '(node, st) := for_token (tokens e) trie st in
  {| heap := alter (append_id (id e)) node (heap st);
     node_count := node_count st; token_count := token_count st |}.

(** What [build_trie] returns: the address of the root and the store it
    points into. *)
Record Trie : Type := mkTrie { root : nat; nodes : list Node }.

Definition build_state (es : list Entity) : builder :=
  fold_left (for_entity 0) es {| heap := [mkNode [] ∅]; node_count := 1; token_count := 0 |}.

Definition build_trie (es : list Entity) (lg : logger) : logger * Trie :=
  let st := build_state es in
  let lg := emit INFO (pretty (token_count st) +:+ " tokens") lg in
  let lg := emit INFO (pretty (node_count st) +:+ " trie nodes") lg in
  (lg, {| root := 0; nodes := heap st |}).

(** * Part II: vocabulary of the specification *)

(** ** Strings *)

Fixpoint str_all (p : ascii -> bool) (s : string) : bool :=
  match s with
  | EmptyString => true
  | String a rest => p a && str_all p rest
  end.

Definition has_char (c : ascii) (s : string) : bool :=
  negb (str_all (fun a => negb (ascii_eqb a c)) s).

Definition is_upper (c : ascii) : bool := in_set [upper] c.
Definition is_digit (c : ascii) : bool := in_set [digit] c.

(** "One or more uppercase letters immediately followed by at least one
    digit, then zero or more uppercase-letter-or-digit characters". *)
Definition code_like (s : string) : Prop :=
  exists u d r,
    s = u +:+ String d r /\ u <> EmptyString /\ str_all is_upper u = true /\
    is_digit d = true /\ str_all (fun c => is_upper c || is_digit c) r = true.

(** What [$] accepts: the end of the string, or one line feed before it. *)
Definition at_end (e : string) : Prop := e = EmptyString \/ e = String LF EmptyString.

Definition not_space (c : ascii) : bool := negb (isspace c).

(** ** Records of the file *)

(** The fields of a record. *)
Definition fields (line : string) : list string := split_on TAB (rstrip LF line).

(** A record is malformed when it does not have exactly four fields. *)
Definition malformed (line : string) : bool := negb (length (fields line) =? 4)%nat.

Definition count (p : string -> bool) (lines : list string) : nat :=
  length (List.filter p lines).

Section LoaderSpec.
Variable skipped_geo_names : gset string.
Variable skipped_geo_names_pat : regex.
Variable skipped_place_types : gset string.

(** The three exclusion rules, in the order of the code. *)
Definition excluded_by (geo_name place_type : string) : bool :=
  bool_decide (place_type ∈ skipped_place_types)
  || bool_decide (geo_name ∈ skipped_geo_names)
  || re_match skipped_geo_names_pat geo_name.

(** A well-formed record that one of the rules excludes. *)
Definition skipped (line : string) : bool :=
  match fields line with
  | [_; geo_name; _; place_type] => excluded_by geo_name place_type
  | _ => false
  end.

(** The entity of a retained record. *)
Definition retained (line : string) : option Entity :=
  match fields line with
  | [mrgid; geo_name; _; place_type] =>
      if excluded_by geo_name place_type then None
      else Some (mkEntity (split_ws geo_name) mrgid)
  | _ => None
  end.

(** The diagnostic of a record. *)
Definition diagnostic (line : string) : logger :=
  if malformed line then [(WARNING, "ill-formed line: " +:+ rstrip LF line)]
  else if skipped line then [(DEBUG, "skipping: " +:+ rstrip LF line)]
  else [].

(** The entities read from [lines] by a fresh loader. *)
Definition loaded (lines : list string) : list Entity :=
  entities (read_lines skipped_geo_names skipped_geo_names_pat skipped_place_types
              lines {| entities := []; log := [] |}).

End LoaderSpec.

(** ** The trie *)

(** Following [children] from [node] along [toks]. *)
Fixpoint walk (h : list Node) (node : nat) (toks : list string) : option nat :=
  match toks with
  | [] => Some node
  | token :: rest =>
      match children (h !!! node) !! token with
      | Some child => walk h child rest
      | None => None
      end
  end.

(** The number of identifier placements in a store. *)
Definition total_ids (h : list Node) : nat := sum_list_with (fun nd => length (ids nd)) h.

(** A node is reachable when some token sequence leads to it from the root. *)
Definition reachable (h : list Node) (trie node : nat) : Prop :=
  exists toks, walk h trie toks = Some node.

(** [paths !! a] is the token sequence of the node at address [a].  The
    store is a tree rooted at address 0 when such a labelling exists:
    distinct nodes carry distinct sequences, and the edges are exactly the
    one-token extensions. *)
Record tree_inv (h : list Node) (paths : list (list string)) : Prop := mkTreeInv {
  inv_length : length paths = length h;
  inv_root : paths !! 0 = Some [];
  inv_nodup : NoDup paths;
  inv_edge : forall n token c, n < length h ->
    children (h !!! n) !! token = Some c <->
    exists p, paths !! n = Some p /\ paths !! c = Some (p ++ [token]);
  inv_closed : forall c q token, paths !! c = Some (q ++ [token]) ->
    exists n, paths !! n = Some q
}.

(** The state of the builder after the entities [es]. *)
Record built (es : list Entity) (st : builder) (paths : list (list string)) : Prop :=
  mkBuilt {
  built_tree : tree_inv (heap st) paths;
  built_ids : forall n p, paths !! n = Some p ->
    ids (heap st !!! n) = id <$> filter (fun e => tokens e = p) es;
  built_cover : forall e, e ∈ es -> tokens e ∈ paths;
  built_total : total_ids (heap st) = length es;
  built_node_count : node_count st = length (heap st);
  built_token_count : token_count st = sum_list_with (fun e => length (tokens e)) es
}.

(** ** Sample inputs *)

Definition tab : string := String TAB EmptyString.
Definition nl : string := String LF EmptyString.

Definition header : string :=
  "MRGID" +:+ tab +:+ "GeoName" +:+ tab +:+ "Language" +:+ tab +:+ "Placetype" +:+ nl.

Definition h2_line : string := "7" +:+ tab +:+ "H2" +:+ tab +:+ "en" +:+ tab +:+ "Sea" +:+ nl.

Definition bad_line : string := "9" +:+ tab +:+ "oops" +:+ tab +:+ "en" +:+ nl.

Definition blank_line : string := "10" +:+ tab +:+ "  " +:+ tab +:+ "en" +:+ tab +:+ "Sea".

Definition sample_text : string :=
  header +:+
  "1001" +:+ tab +:+ "North Sea" +:+ tab +:+ "en" +:+ tab +:+ "Sea" +:+ nl +:+
  "1002" +:+ tab +:+ "North Sea Canal" +:+ tab +:+ "en" +:+ tab +:+ "Waterway" +:+ nl +:+
  "72M7" +:+ tab +:+ "FAO Code" +:+ tab +:+ "en" +:+ tab +:+ "FAO Subdivisions" +:+ nl +:+
  h2_line +:+ bad_line +:+ blank_line.

Definition sample_fs : gmap string string := {[ "mr.csv" := sample_text ]}.

Definition north_sea : Entity := mkEntity ["North"; "Sea"] "1001".
Definition north_sea_canal : Entity := mkEntity ["North"; "Sea"; "Canal"] "1002".
Definition north_sea_again : Entity := mkEntity ["North"; "Sea"] "1003".
Definition north_bay : Entity := mkEntity ["North"; "Bay"; "East"] "1004".

(** * Part III: facts *)

(** ** Strings: basic facts *)

Lemma ascii_eqb_true a b : ascii_eqb a b = true <-> a = b.
Proof. apply Ascii.eqb_eq. Qed.

Lemma append_nil_l (t : string) : EmptyString +:+ t = t.
Proof. reflexivity. Qed.

Lemma append_cons a (s t : string) : String a s +:+ t = String a (s +:+ t).
Proof. reflexivity. Qed.

Lemma str_all_app p s t : str_all p (s +:+ t) = str_all p s && str_all p t.
Proof.
  induction s as [|a s IH]; rewrite ?append_nil_l, ?append_cons; simpl; [done|].
  by rewrite IH, andb_assoc.
Qed.

Lemma has_char_cons c a s : has_char c (String a s) = ascii_eqb a c || has_char c s.
Proof. unfold has_char. simpl. by rewrite negb_andb, negb_involutive. Qed.

Lemma append_nil_r (s : string) : s +:+ EmptyString = s.
Proof. induction s as [|a s IH]; rewrite ?append_nil_l, ?append_cons; congruence. Qed.

Lemma append_assoc (s t u : string) : (s +:+ t) +:+ u = s +:+ (t +:+ u).
Proof. induction s as [|a s IH]; rewrite ?append_nil_l, ?append_cons; congruence. Qed.

(** *** Lines of a file *)

Lemma rstrip_cons c a s :
  rstrip c (String a s) =
    match rstrip c s with
    | EmptyString => if ascii_eqb a c then EmptyString else String a EmptyString
    | r => String a r
    end.
Proof. reflexivity. Qed.

Lemma has_char_rstrip_cons c a s :
  has_char c (rstrip c (String a s)) =
    match rstrip c s with
    | EmptyString => false
    | r => ascii_eqb a c || has_char c r
    end.
Proof.
  rewrite rstrip_cons. destruct (rstrip c s) as [|b r] eqn:E.
  - destruct (ascii_eqb a c) eqn:Ea; [done|].
    rewrite has_char_cons, Ea. done.
  - by rewrite has_char_cons.
Qed.

(** A line read from a file has no line feed before its end. *)
Lemma readlines_no_lf text line :
  line ∈ readlines text -> has_char LF (rstrip LF line) = false.
Proof.
  revert line. induction text as [|a rest IH]; intros line; simpl.
  - by intros ?%elem_of_nil.
  - destruct (ascii_eqb a LF) eqn:Ea.
    + intros [->|Hin]%elem_of_cons; [|by apply IH].
      apply ascii_eqb_true in Ea as ->. done.
    + destruct (readlines rest) as [|l ls] eqn:Er.
      * intros ->%list_elem_of_singleton. simpl. rewrite Ea.
        rewrite has_char_cons, Ea. done.
      * intros [->|Hin]%elem_of_cons.
        -- rewrite has_char_rstrip_cons.
           specialize (IH l ltac:(left)).
           destruct (rstrip LF l); [done|]. by rewrite Ea, IH.
        -- apply IH. by right.
Qed.

Lemma split_on_not_nil sep s : split_on sep s <> [].
Proof.
  destruct s as [|a s]; simpl; [done|].
  destruct (ascii_eqb a sep); [done|]. by destruct (split_on sep s).
Qed.

(** A field has only characters of the line. *)
Lemma split_on_has_char sep c s f :
  f ∈ split_on sep s -> has_char c f = true -> has_char c s = true.
Proof.
  revert f. induction s as [|a s IH]; intros f; simpl.
  - by intros ->%list_elem_of_singleton.
  - rewrite has_char_cons. destruct (ascii_eqb a sep) eqn:Ea.
    + intros [->|Hin]%elem_of_cons Hf; [done|].
      rewrite (IH f Hin Hf). apply orb_true_r.
    + destruct (split_on sep s) as [|g gs] eqn:Es.
      * by destruct (split_on_not_nil sep s).
      * intros [->|Hin]%elem_of_cons; rewrite ?has_char_cons.
        -- intros [->|Hg]%orb_true_iff; [done|].
           rewrite (IH g); [apply orb_true_r|by left|done].
        -- intros Hf. rewrite (IH f); [apply orb_true_r|by right|done].
Qed.

(** ** The matcher on the module's pattern *)

Lemma append_eq_nil (u v : string) :
  EmptyString = u +:+ v -> u = EmptyString /\ v = EmptyString.
Proof. destruct u; [rewrite append_nil_l; by intros <-|by rewrite append_cons]. Qed.

(** Repeating a character set consumes a run of its characters. *)
Lemma star_loop_charset ranges k fuel pos s :
  String.length s <= fuel ->
  star_loop (re_run (CharSet ranges)) fuel pos s k = true <->
  exists u v, s = u +:+ v /\ str_all (in_set ranges) u = true /\
              k (pos + String.length u) v = true.
Proof.
  revert pos s. induction fuel as [|fuel IH]; intros pos s Hlen.
  - destruct s; simpl in Hlen; [|lia]. simpl. split.
    + intros Hk. exists EmptyString, EmptyString. by rewrite Nat.add_0_r.
    + intros (u & v & [-> ->]%append_eq_nil & _ & Hk). simpl in Hk.
      by rewrite Nat.add_0_r in Hk.
  - simpl. destruct s as [|a rest].
    + simpl. split.
      * intros Hk. exists EmptyString, EmptyString. by rewrite Nat.add_0_r.
      * intros (u & v & [-> ->]%append_eq_nil & _ & Hk). simpl in Hk.
        by rewrite Nat.add_0_r in Hk.
    + simpl in Hlen. rewrite orb_true_iff, !andb_true_iff, IH by lia. split.
      * intros [(Ha & _ & u & v & -> & Hu & Hk)|Hk].
        -- exists (String a u), v. rewrite append_cons. simpl.
           rewrite Ha, Hu. split_and!; [done..|].
           by replace (pos + S (String.length u)) with (S pos + String.length u) by lia.
        -- exists EmptyString, (String a rest). by rewrite Nat.add_0_r.
      * intros (u & v & Hs & Hu & Hk). destruct u as [|b u].
        -- rewrite append_nil_l in Hs. subst v. right.
           simpl in Hk. by rewrite Nat.add_0_r in Hk.
        -- rewrite append_cons in Hs. injection Hs as [= <- ->].
           simpl in Hu. apply andb_true_iff in Hu as [Ha Hu]. left.
           split; [done|]. split; [apply Nat.ltb_lt; simpl; lia|].
           exists u, v. split_and!; [done..|].
           by replace (S pos + String.length u) with (pos + S (String.length u)) by lia.
Qed.

Lemma in_set_upper_digit c :
  in_set [upper; digit] c = is_upper c || is_digit c.
Proof. unfold is_upper, is_digit, in_set. simpl. by rewrite !orb_false_r. Qed.

Lemma str_all_ext p q s : (forall c, p c = q c) -> str_all p s = str_all q s.
Proof. intros E. induction s as [|a s IH]; simpl; [done|]. by rewrite E, IH. Qed.

Lemma re_run_Eol pos e :
  re_run Eol pos e (fun _ _ => true) = true <-> at_end e.
Proof.
  unfold at_end. destruct e as [|a [|b e]]; simpl.
  - split; [by left|done].
  - rewrite andb_true_r, ascii_eqb_true. split.
    + intros ->. by right.
    + by intros [?|[= ->]].
  - split; [done|]. by intros [?|?].
Qed.

Lemma re_run_Cat r1 r2 pos s k :
  re_run (Cat r1 r2) pos s k = re_run r1 pos s (fun pos' s' => re_run r2 pos' s' k).
Proof. reflexivity. Qed.

Lemma re_run_Bol pos s k : re_run Bol pos s k = (pos =? 0)%nat && k pos s.
Proof. reflexivity. Qed.

Lemma re_run_CharSet ranges pos s k :
  re_run (CharSet ranges) pos s k = true <->
  exists a rest, s = String a rest /\ in_set ranges a = true /\ k (S pos) rest = true.
Proof.
  destruct s as [|a rest]; simpl.
  - split; [done|]. by intros (? & ? & ? & _).
  - rewrite andb_true_iff. split; [by eauto|].
    by intros (? & ? & [= <- <-] & ? & ?).
Qed.

Lemma re_run_Star_CharSet ranges pos s k :
  re_run (Star (CharSet ranges)) pos s k = true <->
  exists u v, s = u +:+ v /\ str_all (in_set ranges) u = true /\
              k (pos + String.length u) v = true.
Proof. apply star_loop_charset. lia. Qed.

Lemma re_run_Plus_CharSet ranges pos s k :
  re_run (Plus (CharSet ranges)) pos s k = true <->
  exists a u v, s = String a (u +:+ v) /\ in_set ranges a = true /\
                str_all (in_set ranges) u = true /\
                k (S pos + String.length u) v = true.
Proof.
  change (re_run (Plus (CharSet ranges)) pos s k)
    with (re_run (CharSet ranges) pos s
            (fun pos' s' => re_run (Star (CharSet ranges)) pos' s' k)).
  rewrite re_run_CharSet. split.
  - intros (a & rest & -> & Ha & (u & v & -> & Hu & Hk)%re_run_Star_CharSet).
    by exists a, u, v.
  - intros (a & u & v & -> & Ha & Hu & Hk). exists a, (u +:+ v).
    split_and!; [done..|]. apply re_run_Star_CharSet. by exists u, v.
Qed.

(** The pattern accepts exactly the codes, possibly followed by one line
    feed. *)
Lemma pat_match s :
  re_match SKIPPED_GEO_NAMES_PAT s = true <->
  exists body e, s = body +:+ e /\ code_like body /\ at_end e.
Proof.
  unfold re_match, SKIPPED_GEO_NAMES_PAT.
  rewrite re_run_Cat, re_run_Bol. cbv beta.
  rewrite Nat.eqb_refl, andb_true_l, re_run_Cat, re_run_Plus_CharSet. split.
  - intros (a & u & v & -> & Ha & Hu & Hk). cbv beta in Hk.
    rewrite re_run_Cat in Hk.
    apply re_run_CharSet in Hk as (d & r & -> & Hd & Hk). cbv beta in Hk.
    rewrite re_run_Cat in Hk.
    apply re_run_Star_CharSet in Hk as (w & e & -> & Hw & He).
    apply re_run_Eol in He.
    exists (String a u +:+ String d w), e. split_and!.
    + by rewrite !append_cons, !append_assoc, !append_cons.
    + exists (String a u), d, w. split_and!; [done|done| |done|].
      * change (is_upper a && str_all is_upper u = true).
        apply andb_true_iff. by split.
      * by rewrite <- (str_all_ext _ _ w in_set_upper_digit).
    + done.
  - intros (body & e & -> & (u & d & r & -> & Hne & Hu & Hd & Hr) & He).
    destruct u as [|b u]; [done|].
    change (is_upper b && str_all is_upper u = true) in Hu.
    apply andb_true_iff in Hu as [Ha Hu].
    exists b, u, (String d r +:+ e).
    split_and!; [by rewrite !append_cons, !append_assoc|done..|].
    rewrite re_run_Cat. apply re_run_CharSet. exists d, (r +:+ e).
    split_and!; [done..|]. rewrite re_run_Cat.
    apply re_run_Star_CharSet. exists r, e. split_and!; [done| |].
    + by rewrite (str_all_ext _ _ r in_set_upper_digit).
    + by apply re_run_Eol.
Qed.

Lemma has_char_app c s t : has_char c (s +:+ t) = has_char c s || has_char c t.
Proof. unfold has_char. by rewrite str_all_app, negb_andb. Qed.

(** On a name without line feed the pattern accepts exactly the codes. *)
Lemma pat_match_no_lf s :
  has_char LF s = false ->
  re_match SKIPPED_GEO_NAMES_PAT s = true <-> code_like s.
Proof.
  intros Hlf. rewrite pat_match. split.
  - intros (body & e & -> & Hb & [->| ->]).
    + by rewrite append_nil_r.
    + rewrite has_char_app in Hlf. apply orb_false_iff in Hlf as [_ Hlf]. done.
  - intros Hc. exists s, EmptyString. rewrite append_nil_r. split_and!; [done..|by left].
Qed.

(** ** Splitting a name into tokens *)

Lemma split_ws_from_tokens cur s t :
  str_all not_space cur = true ->
  t ∈ split_ws_from cur s ->
  t <> EmptyString /\ str_all not_space t = true.
Proof.
  revert cur. induction s as [|a rest IH]; intros cur Hcur; simpl.
  - destruct cur; [by intros ?%elem_of_nil|].
    by intros ->%list_elem_of_singleton.
  - destruct (isspace a) eqn:Ea.
    + destruct cur as [|c cur]; [by apply IH|].
      intros [->|Hin]%elem_of_cons; [done|]. by apply (IH EmptyString).
    + apply IH. rewrite str_all_app, Hcur. simpl.
      unfold not_space. by rewrite Ea.
Qed.

Lemma split_ws_from_nil cur s :
  split_ws_from cur s = [] <-> cur = EmptyString /\ str_all isspace s = true.
Proof.
  revert cur. induction s as [|a rest IH]; intros cur; simpl.
  - destruct cur; [done|]. split; [done|]. by intros [? _].
  - destruct (isspace a) eqn:Ea; simpl.
    + destruct cur; [apply IH|]. split; [done|]. by intros [? _].
    + rewrite IH. split; [|by intros [_ ?]].
      intros [Hc _]. destruct cur; by rewrite ?append_nil_l, ?append_cons in Hc.
Qed.

(** Every token is a non-empty word without whitespace. *)
Lemma split_ws_tokens s t :
  t ∈ split_ws s -> t <> EmptyString /\ str_all not_space t = true.
Proof. by apply split_ws_from_tokens. Qed.

(** A name yields no token exactly when it is empty or all whitespace. *)
Lemma split_ws_nil s : split_ws s = [] <-> str_all isspace s = true.
Proof. unfold split_ws. rewrite split_ws_from_nil. by intuition. Qed.

(** ** The loader, record by record *)

Section LoaderFacts.
Variable names : gset string.
Variable pat : regex.
Variable types : gset string.

Lemma loop_body_effect st line :
  loop_body names pat types st line =
    {| entities := entities st ++ option_list (retained names pat types line);
       log := log st ++ diagnostic names pat types line |}.
Proof.
  unfold loop_body, retained, diagnostic, malformed, skipped, fields.
  destruct st as [es lg].
  destruct (split_on TAB (rstrip LF line)) as [|f1 [|f2 [|f3 [|f4 [|f5 fs]]]]];
    unfold log_to, append_entity, emit; simpl; rewrite ?app_nil_r; try done.
  fold (excluded_by names pat types f2 f4).
  destruct (excluded_by names pat types f2 f4); simpl; by rewrite ?app_nil_r.
Qed.

Lemma read_lines_effect lines st :
  read_lines names pat types lines st =
    {| entities := entities st ++ omap (retained names pat types) lines;
       log := log st ++ concat (map (diagnostic names pat types) lines) |}.
Proof.
  unfold read_lines. revert st.
  induction lines as [|line lines IH]; intros st; simpl.
  - destruct st. simpl. by rewrite !app_nil_r.
  - rewrite IH, loop_body_effect. simpl.
    destruct (retained names pat types line); simpl; by rewrite <- !app_assoc.
Qed.

Lemma loaded_omap lines : loaded names pat types lines = omap (retained names pat types) lines.
Proof. unfold loaded. by rewrite read_lines_effect. Qed.

Lemma read_mr_entities_text fs csv_fname text lg :
  fs !! csv_fname = Some text ->
  exists lg',
    read_mr_entities names pat types fs csv_fname lg
      = (lg', Some (loaded names pat types (tail (readlines text)))) /\
    forall d, d ∈ concat (map (diagnostic names pat types) (tail (readlines text))) ->
              d ∈ lg'.
Proof.
  intros Hfs. unfold read_mr_entities. rewrite Hfs.
  eexists. split.
  - f_equal. by rewrite read_lines_effect, loaded_omap.
  - intros d Hd. rewrite read_lines_effect. simpl. unfold emit.
    rewrite !elem_of_app. left. by right.
Qed.

Lemma count_partition lines :
  length (omap (retained names pat types) lines) + count malformed lines
    + count (skipped names pat types) lines
  = length lines.
Proof.
  unfold count. induction lines as [|line lines IH]; simpl; [done|].
  assert (Hcase : (retained names pat types line = None /\ malformed line = true
                   /\ skipped names pat types line = false)
                  \/ (retained names pat types line = None /\ malformed line = false
                      /\ skipped names pat types line = true)
                  \/ (is_Some (retained names pat types line) /\ malformed line = false
                      /\ skipped names pat types line = false)).
  { unfold retained, malformed, skipped.
    destruct (fields line) as [|f1 [|f2 [|f3 [|f4 [|f5 fs]]]]]; simpl; auto.
    destruct (excluded_by names pat types f2 f4); eauto 10. }
  destruct Hcase as [(-> & -> & ->)|[(-> & -> & ->)|([e ->] & -> & ->)]];
    simpl;
    change (list_omap string Entity (retained names pat types) lines)
      with (omap (retained names pat types) lines);
    lia.
Qed.

End LoaderFacts.

(** ** The trie: invariants of the store *)

Lemma walk_snoc h node toks token :
  walk h node (toks ++ [token]) =
    match walk h node toks with
    | Some n => children (h !!! n) !! token
    | None => None
    end.
Proof.
  revert node. induction toks as [|t toks IH]; intros node; simpl.
  - by destruct (children (h !!! node) !! token).
  - destruct (children (h !!! node) !! t); [apply IH|done].
Qed.

Lemma walk_app h node toks1 toks2 :
  walk h node (toks1 ++ toks2) =
    match walk h node toks1 with
    | Some n => walk h n toks2
    | None => None
    end.
Proof.
  revert node. induction toks1 as [|t toks1 IH]; intros node; simpl; [done|].
  destruct (children (h !!! node) !! t); [apply IH|done].
Qed.

(** In a tree the walk from the root reads the labelling. *)
Lemma walk_paths h paths toks n :
  tree_inv h paths ->
  walk h 0 toks = Some n <-> paths !! n = Some toks.
Proof.
  intros Hinv. revert n. induction toks as [|token toks IH] using rev_ind; intros n.
  - simpl. split.
    + intros [= <-]. apply (inv_root _ _ Hinv).
    + intros Hn. f_equal.
      eapply NoDup_lookup; [apply (inv_nodup _ _ Hinv)|apply (inv_root _ _ Hinv)|done].
  - rewrite walk_snoc. split.
    + destruct (walk h 0 toks) as [m|] eqn:Hw; [|done]. intros Hc.
      pose proof (proj1 (IH m) eq_refl) as Hm.
      apply (inv_edge _ _ Hinv) in Hc as (p & Hp & Hn).
      * congruence.
      * rewrite <- (inv_length _ _ Hinv). by eapply lookup_lt_Some.
    + intros Hn. destruct (inv_closed _ _ Hinv _ _ _ Hn) as [m Hm].
      rewrite (proj2 (IH m) Hm).
      apply (inv_edge _ _ Hinv).
      * rewrite <- (inv_length _ _ Hinv). by eapply lookup_lt_Some.
      * by exists toks.
Qed.

Lemma tree_inv_init : tree_inv [mkNode [] ∅] [[]].
Proof.
  split; simpl; [done|done|apply NoDup_singleton| |].
  - intros n token c Hn. assert (n = 0) as -> by lia. simpl. split; [done|].
    intros (p & [= <-] & Hc). destruct c; simplify_eq/=.
  - intros [|c] q token Hc; simplify_eq/=. by destruct q.
Qed.

(** Changing [ids] only keeps the tree. *)
Lemma tree_inv_same_children h h' paths :
  tree_inv h paths ->
  length h' = length h ->
  (forall n, children (h' !!! n) = children (h !!! n)) ->
  tree_inv h' paths.
Proof.
  intros [Hl Hr Hn He Hc] Hlen Hch. split; [congruence|done|done| |done].
  intros n token c Hlt. rewrite Hch. apply He. lia.
Qed.

(** Allocating a child under a token that [node] does not have yet. *)
Lemma tree_inv_alloc h paths node p token :
  tree_inv h paths ->
  paths !! node = Some p ->
  children (h !!! node) !! token = None ->
  tree_inv (alter (set_child token (length h)) node (h ++ [mkNode [] ∅]))
           (paths ++ [p ++ [token]]).
Proof.
  intros Hinv Hp Hnone.
  pose proof (inv_length _ _ Hinv) as Hlen.
  pose proof (inv_nodup _ _ Hinv) as Hnd.
  assert (Hnode : node < length h) by (rewrite <- Hlen; by eapply lookup_lt_Some).
  assert (Hfresh : forall c, paths !! c <> Some (p ++ [token])).
  { intros c Hc.
    assert (children (h !!! node) !! token = Some c) as Hch
      by (apply (inv_edge _ _ Hinv); eauto).
    congruence. }
  assert (Hnd' : NoDup (paths ++ [p ++ [token]])).
  { apply NoDup_app. split_and!; [done| |apply NoDup_singleton].
    intros x Hx ->%list_elem_of_singleton.
    apply list_elem_of_lookup in Hx as [c Hc]. by apply (Hfresh c). }
  assert (Hlk : forall n token' , n < length h ->
            children (alter (set_child token (length h)) node (h ++ [mkNode [] ∅]) !!! n)
              !! token'
            = if decide (n = node /\ token' = token) then Some (length h)
              else children (h !!! n) !! token').
  { intros n token' Hn. destruct (decide (n = node)) as [->|Hne].
    - rewrite list_lookup_total_alter_eq by (rewrite length_app; simpl; lia).
      rewrite lookup_total_app_l by done. simpl.
      destruct (decide (token' = token)) as [->|Hne'].
      + rewrite lookup_insert_eq. by rewrite decide_True.
      + rewrite lookup_insert_ne by done. rewrite decide_False; [done|]. by intros [_ ?].
    - rewrite list_lookup_total_alter_ne by done.
      rewrite lookup_total_app_l by done.
      rewrite decide_False; [done|]. by intros [? _]. }
  split.
  - rewrite length_alter, !length_app. simpl. lia.
  - apply lookup_app_l_Some, (inv_root _ _ Hinv).
  - done.
  - intros n token' c. rewrite length_alter, length_app. simpl. intros Hn.
    destruct (decide (n = length h)) as [->|Hne].
    + (* the new node has no child *)
      rewrite list_lookup_total_alter_ne by lia.
      rewrite list_lookup_total_middle by done. simpl. rewrite lookup_empty.
      split; [done|]. intros (q & Hq & Hc). exfalso.
      apply lookup_snoc_Some in Hq as [[Hq _]|[_ <-]]; [lia|].
      apply lookup_snoc_Some in Hc as [[_ Hc]|[_ Hc]].
      * destruct (inv_closed _ _ Hinv _ _ _ Hc) as [m Hm]. by apply (Hfresh m).
      * apply (f_equal length) in Hc. rewrite !length_app in Hc. simpl in Hc. lia.
    + assert (Hn' : n < length h) by lia.
      rewrite Hlk by done. case_decide as Hd.
      * destruct Hd as [-> ->]. split.
        -- intros [= <-]. exists p. split; [by apply lookup_app_l_Some|].
           apply lookup_snoc_Some. right. by rewrite Hlen.
        -- intros (q & Hq & Hc). f_equal.
           apply lookup_snoc_Some in Hq as [[_ Hq]|[? _]]; [|lia].
           assert (q = p) as -> by congruence.
           apply lookup_snoc_Some in Hc as [[_ Hc]|[-> _]]; [|done].
           by destruct (Hfresh c).
      * rewrite (inv_edge _ _ Hinv) by done. split.
        -- intros (q & Hq & Hc). exists q. split; by apply lookup_app_l_Some.
        -- intros (q & Hq & Hc). exists q.
           apply lookup_snoc_Some in Hq as [[_ Hq]|[? _]]; [|lia].
           split; [done|].
           apply lookup_snoc_Some in Hc as [[_ Hc]|[_ Hc]]; [done|].
           apply app_inj_tail in Hc as [-> ->].
           destruct Hd. split; [|done].
           exact (NoDup_lookup _ _ _ _ Hnd Hq Hp).
  - intros c q token' Hc.
    apply lookup_snoc_Some in Hc as [[_ Hc]|[_ Hc]].
    + destruct (inv_closed _ _ Hinv _ _ _ Hc) as [m Hm].
      exists m. by apply lookup_app_l_Some.
    + apply app_inj_tail in Hc as [-> ->]. exists node. by apply lookup_app_l_Some.
Qed.

(** ** The trie: the loops *)

Lemma lookup_total_ge (h : list Node) m : length h <= m -> h !!! m = mkNode [] ∅.
Proof. intros Hm. by rewrite list_lookup_total_alt, lookup_ge_None_2. Qed.

Lemma ids_alter_set_child token c n (h : list Node) m :
  ids (alter (set_child token c) n h !!! m) = ids (h !!! m).
Proof. rewrite list_lookup_total_alter. by case_decide as Hd; [destruct Hd as [-> _]|]. Qed.

Lemma children_alter_append_id i n (h : list Node) m :
  children (alter (append_id i) n h !!! m) = children (h !!! m).
Proof. rewrite list_lookup_total_alter. by case_decide as Hd; [destruct Hd as [-> _]|]. Qed.

Lemma ids_alter_append_id i n (h : list Node) m :
  ids (alter (append_id i) n h !!! m) =
    if decide (n = m /\ n < length h) then ids (h !!! m) ++ [i] else ids (h !!! m).
Proof. rewrite list_lookup_total_alter. by case_decide as Hd; [destruct Hd as [-> _]|]. Qed.

Lemma total_ids_app h1 h2 : total_ids (h1 ++ h2) = total_ids h1 + total_ids h2.
Proof. apply sum_list_with_app. Qed.

Lemma total_ids_alter f n (h : list Node) :
  (forall nd, length (ids (f nd)) = length (ids nd)) ->
  total_ids (alter f n h) = total_ids h.
Proof.
  intros Hf. unfold total_ids.
  revert n. induction h as [|nd h IH]; intros [|n]; try done.
  - simpl. by rewrite Hf.
  - specialize (IH n). simpl. f_equal. exact IH.
Qed.

Lemma total_ids_append_id i n (h : list Node) :
  n < length h -> total_ids (alter (append_id i) n h) = S (total_ids h).
Proof.
  unfold total_ids.
  revert n. induction h as [|nd h IH]; intros [|n] Hn; simpl in Hn; try lia.
  - simpl. rewrite length_app. simpl. lia.
  - specialize (IH n ltac:(lia)). simpl. rewrite <- Nat.add_succ_r. f_equal. exact IH.
Qed.

(** The inner loop started at a node of the tree: it ends at the node of
    the extended token sequence, allocating the missing nodes at the end of
    the store and touching no [ids]. *)
Lemma for_token_spec toks node st paths p :
  tree_inv (heap st) paths ->
  paths !! node = Some p ->
  exists paths',
    tree_inv (heap (for_token toks node st).2) (paths ++ paths') /\
    (paths ++ paths') !! (for_token toks node st).1 = Some (p ++ toks) /\
    (forall m, m < length (heap st) ->
       ids (heap (for_token toks node st).2 !!! m) = ids (heap st !!! m)) /\
    (forall m, length (heap st) <= m -> ids (heap (for_token toks node st).2 !!! m) = []) /\
    total_ids (heap (for_token toks node st).2) = total_ids (heap st) /\
    node_count (for_token toks node st).2 = node_count st + length paths' /\
    token_count (for_token toks node st).2 = token_count st.
Proof.
  revert node st paths p. induction toks as [|token rest IH]; intros node st paths p Hinv Hp.
  - exists []. rewrite !app_nil_r. simpl. split_and!; try done.
    intros m Hm. by rewrite lookup_total_ge.
  - simpl. pose proof (inv_length _ _ Hinv) as Hlen.
    assert (Hnode : node < length (heap st)) by (rewrite <- Hlen; by eapply lookup_lt_Some).
    destruct (children (heap st !!! node) !! token) as [child|] eqn:Hc.
    + apply (inv_edge _ _ Hinv) in Hc as (q & Hq & Hchild); [|done].
      assert (q = p) as -> by congruence.
      destruct (IH child st paths (p ++ [token]) Hinv Hchild) as (paths' & H).
      exists paths'. by rewrite <- app_assoc in H.
    + pose proof (tree_inv_alloc _ _ _ _ _ Hinv Hp Hc) as Hinv1.
      set (st1 := {| heap := alter (set_child token (length (heap st))) node
                               (heap st ++ [mkNode [] ∅]);
                     node_count := S (node_count st);
                     token_count := token_count st |}) in *.
      assert (Hnew : (paths ++ [p ++ [token]]) !! length (heap st) = Some (p ++ [token]))
        by (by apply list_lookup_middle).
      destruct (IH (length (heap st)) st1 _ _ Hinv1 Hnew)
        as (paths' & Ht & Hl & Hold & Hfresh & Htot & Hcnt & Htok).
      assert (Hlen1 : length (heap st1) = S (length (heap st))).
      { simpl. rewrite length_alter, length_app. simpl. lia. }
      exists ([p ++ [token]] ++ paths'). rewrite app_assoc.
      split_and!; try done.
      * rewrite Hl. by rewrite <- app_assoc.
      * intros m Hm. rewrite Hold by lia. simpl.
        rewrite ids_alter_set_child. by rewrite lookup_total_app_l.
      * intros m Hm. destruct (decide (m = length (heap st))) as [->|Hne].
        -- rewrite Hold by lia. simpl. rewrite ids_alter_set_child.
           by rewrite list_lookup_total_middle.
        -- apply Hfresh. lia.
      * rewrite Htot. simpl. rewrite total_ids_alter by done.
        rewrite total_ids_app. unfold total_ids. simpl. lia.
      * rewrite Hcnt. simpl. lia.
Qed.

(** When the path of [toks] is already there, the inner loop only follows
    it. *)
Lemma for_token_existing toks node st n :
  walk (heap st) node toks = Some n -> for_token toks node st = (n, st).
Proof.
  revert node. induction toks as [|token rest IH]; intros node; simpl.
  - by intros [= ->].
  - destruct (children (heap st !!! node) !! token); [apply IH|done].
Qed.

Lemma filter_none {A} (P : A -> Prop) `{forall x, Decision (P x)} (l : list A) :
  (forall x, x ∈ l -> ~ P x) -> filter P l = [].
Proof.
  induction l as [|x l IH]; intros Hl; [done|].
  rewrite filter_cons_False by (apply Hl; left).
  apply IH. intros y Hy. apply Hl. by right.
Qed.

Lemma for_entity_built es st paths e :
  built es st paths ->
  exists paths', built (es ++ [e]) (for_entity 0 st e) (paths ++ paths').
Proof.
  intros [Ht Hids Hcov Htot Hnc Htc].
  set (st0 := {| heap := heap st; node_count := node_count st;
                 token_count := token_count st + length (tokens e) |}).
  destruct (for_token_spec (tokens e) 0 st0 paths [] Ht (inv_root _ _ Ht))
    as (paths' & Ht' & Hl & Hold & Hfresh & Htot' & Hcnt & Htok).
  exists paths'. unfold for_entity. fold st0.
  destruct (for_token (tokens e) 0 st0) as [node st'] eqn:Hft. simpl in *.
  pose proof (inv_length _ _ Ht) as Hlen.
  pose proof (inv_length _ _ Ht') as Hlen'.
  assert (Hnode : node < length (heap st')) by (rewrite <- Hlen'; by eapply lookup_lt_Some).
  (* a node allocated by this entity carries a sequence no earlier entity has *)
  assert (Hnew : forall n p, (paths ++ paths') !! n = Some p -> length (heap st) <= n ->
                   filter (fun e0 => tokens e0 = p) es = []).
  { intros n p Hn Hge. apply filter_none. intros e0 He0 Hp.
    apply Hcov, list_elem_of_lookup in He0 as [m Hm].
    pose proof (lookup_lt_Some _ _ _ Hm) as Hmlt.
    assert (n = m); [|lia].
    eapply NoDup_lookup; [apply (inv_nodup _ _ Ht')|done|].
    apply lookup_app_l_Some. congruence. }
  assert (Hkeep : forall n p, (paths ++ paths') !! n = Some p ->
                    ids (heap st' !!! n) = id <$> filter (fun e0 => tokens e0 = p) es).
  { intros n p Hn. destruct (decide (n < length (heap st))) as [Hlt|Hge].
    - rewrite Hold by done. apply Hids.
      by rewrite lookup_app_l in Hn by lia.
    - rewrite Hfresh by lia. by rewrite (Hnew n p Hn) by lia. }
  split; simpl.
  - eapply tree_inv_same_children; [done|by rewrite length_alter|].
    intros n. apply children_alter_append_id.
  - intros n p Hn. rewrite ids_alter_append_id, filter_app, fmap_app.
    case_decide as Hd.
    + destruct Hd as [-> _]. assert (p = tokens e) as -> by congruence.
      rewrite (Hkeep _ _ Hn). by rewrite filter_cons_True, filter_nil.
    + rewrite (Hkeep _ _ Hn).
      rewrite filter_cons_False, filter_nil; [by rewrite app_nil_r|].
      intros He. destruct Hd. split; [|done].
      eapply NoDup_lookup; [apply (inv_nodup _ _ Ht')| |done]. by rewrite Hl, He.
  - intros e0 [He0| ->%list_elem_of_singleton]%elem_of_app.
    + apply elem_of_app. left. by apply Hcov.
    + by eapply list_elem_of_lookup_2.
  - rewrite total_ids_append_id by done. rewrite length_app. simpl. lia.
  - rewrite length_alter, Hcnt, Hnc, <- Hlen', <- Hlen, length_app. done.
  - rewrite Htok, Htc, sum_list_with_app. simpl. lia.
Qed.

Lemma fold_for_entity_built es es0 st paths :
  built es0 st paths ->
  exists paths', built (es0 ++ es) (fold_left (for_entity 0) es st) (paths ++ paths').
Proof.
  revert es0 st paths. induction es as [|e es IH]; intros es0 st paths Hb; simpl.
  - exists []. by rewrite !app_nil_r.
  - destruct (for_entity_built _ _ _ e Hb) as (paths1 & Hb1).
    destruct (IH _ _ _ Hb1) as (paths2 & Hb2).
    exists (paths1 ++ paths2).
    by rewrite <- app_assoc in Hb2; simpl in Hb2; rewrite app_assoc.
Qed.

Lemma built_init :
  built [] {| heap := [mkNode [] ∅]; node_count := 1; token_count := 0 |} [[]].
Proof.
  split; simpl; try done.
  - apply tree_inv_init.
  - intros [|n] p Hp; simplify_eq/=. done.
  - by intros e ?%elem_of_nil.
Qed.

(** The finished store is a tree that holds every entity. *)
Lemma build_state_built es : exists paths, built es (build_state es) paths.
Proof.
  destruct (fold_for_entity_built es [] _ _ built_init) as (paths & Hb).
  by exists ([[]] ++ paths).
Qed.

Lemma build_state_snoc es e :
  build_state (es ++ [e]) = for_entity 0 (build_state es) e.
Proof. unfold build_state. by rewrite fold_left_app. Qed.

(** ** Properties of the trie builder *)

Lemma built_walk es st paths e :
  built es st paths -> e ∈ es ->
  exists n, walk (heap st) 0 (tokens e) = Some n /\ paths !! n = Some (tokens e).
Proof.
  intros Hb He. apply (built_cover _ _ _ Hb), list_elem_of_lookup in He as [n Hn].
  exists n. split; [|done]. by apply (walk_paths _ paths), Hn; apply (built_tree _ _ _ Hb).
Qed.

(** C1. For every entity of the sequence given to [build_trie], walking
    from the returned root through [children] by the entity's tokens, in
    order, reaches a node whose [ids] contains the entity's identifier. *)
Theorem build_trie_finds_every_entity (es : list Entity) (lg : logger) (e : Entity) :
  In e es ->
  let T := (build_trie es lg).2 in
  exists n, walk (nodes T) (root T) (tokens e) = Some n /\ In (id e) (ids (nodes T !!! n)).
Proof.
  intros He%list_elem_of_In. simpl.
  destruct (build_state_built es) as [paths Hb].
  destruct (built_walk _ _ _ _ Hb He) as (n & Hw & Hn).
  exists n. split; [done|].
  rewrite (built_ids _ _ _ Hb _ _ Hn). apply list_elem_of_In.
  apply list_elem_of_fmap_2. by apply list_elem_of_filter.
Qed.

Lemma build_trie_finds_every_entity_witness :
  In north_sea_canal [north_sea; north_sea_canal] /\
  let T := (build_trie [north_sea; north_sea_canal] []).2 in
  exists n, walk (nodes T) (root T) (tokens north_sea_canal) = Some n /\
            In (id north_sea_canal) (ids (nodes T !!! n)).
Proof.
  split; [simpl; auto|].
  apply (build_trie_finds_every_entity [north_sea; north_sea_canal] [] north_sea_canal).
  simpl; auto.
Defined.

(** C5. For two entities with the same token sequence, inserting the second
    creates no node and changes no [children] (the store keeps its nodes),
    and in the finished trie both identifiers are in the [ids] of the one
    node their tokens lead to, in the order of the input: that [ids] is the
    list of the identifiers of the entities with these tokens, in input
    order. *)
Theorem same_tokens_share_terminal_node
    (l1 l2 l3 : list Entity) (e1 e2 : Entity) (lg : logger) :
  tokens e1 = tokens e2 ->
  let before := build_state (l1 ++ e1 :: l2) in
  let after := build_state ((l1 ++ e1 :: l2) ++ [e2]) in
  let es := l1 ++ e1 :: l2 ++ e2 :: l3 in
  let T := (build_trie es lg).2 in
  (node_count after = node_count before /\
   length (heap after) = length (heap before) /\
   forall m, children (heap after !!! m) = children (heap before !!! m)) /\
  exists n,
    walk (nodes T) (root T) (tokens e1) = Some n /\
    walk (nodes T) (root T) (tokens e2) = Some n /\
    ids (nodes T !!! n) = id <$> filter (fun e => tokens e = tokens e1) es /\
    exists a b c, ids (nodes T !!! n) = a ++ id e1 :: b ++ id e2 :: c.
Proof.
  intros Heq. simpl. split.
  - rewrite build_state_snoc.
    destruct (build_state_built (l1 ++ e1 :: l2)) as [paths Hb].
    assert (He1 : e1 ∈ l1 ++ e1 :: l2) by (apply elem_of_app; right; left).
    destruct (built_walk _ _ _ _ Hb He1) as (n & Hw & _).
    unfold for_entity. rewrite <- Heq.
    rewrite (for_token_existing (tokens e1) 0 _ n) by done. simpl.
    split_and!; [done|by rewrite length_alter|].
    intros m. apply children_alter_append_id.
  - destruct (build_state_built (l1 ++ e1 :: l2 ++ e2 :: l3)) as [paths Hb].
    assert (He1 : e1 ∈ l1 ++ e1 :: l2 ++ e2 :: l3) by (apply elem_of_app; right; left).
    destruct (built_walk _ _ _ _ Hb He1) as (n & Hw & Hn).
    exists n. split_and!; [done|by rewrite <- Heq| |].
    + by apply (built_ids _ _ _ Hb).
    + rewrite (built_ids _ _ _ Hb _ _ Hn).
      rewrite filter_app, filter_cons_True, filter_app, filter_cons_True by done.
      rewrite fmap_app, fmap_cons, fmap_app, fmap_cons. by eauto.
Qed.

Lemma same_tokens_share_terminal_node_witness :
  tokens north_sea = tokens north_sea_again /\
  let before := build_state ([] ++ north_sea :: [north_sea_canal]) in
  let after := build_state (([] ++ north_sea :: [north_sea_canal]) ++ [north_sea_again]) in
  let es := [] ++ north_sea :: [north_sea_canal] ++ north_sea_again :: [north_bay] in
  let T := (build_trie es []).2 in
  (node_count after = node_count before /\
   length (heap after) = length (heap before) /\
   forall m, children (heap after !!! m) = children (heap before !!! m)) /\
  exists n,
    walk (nodes T) (root T) (tokens north_sea) = Some n /\
    walk (nodes T) (root T) (tokens north_sea_again) = Some n /\
    ids (nodes T !!! n) = id <$> filter (fun e => tokens e = tokens north_sea) es /\
    exists a b c, ids (nodes T !!! n) = a ++ id north_sea :: b ++ id north_sea_again :: c.
Proof.
  split; [reflexivity|].
  apply (same_tokens_share_terminal_node [] [north_sea_canal] [north_bay]
           north_sea north_sea_again []).
  reflexivity.
Defined.

(** C6. The number of identifier placements in the finished trie equals the
    number of entities given: the nodes reachable from the root are exactly
    the nodes of the returned store, and the lengths of their [ids] add up
    to the length of the input. *)
Theorem build_trie_places_every_id (es : list Entity) (lg : logger) :
  let T := (build_trie es lg).2 in
  (forall n, reachable (nodes T) (root T) n <-> n < length (nodes T)) /\
  total_ids (nodes T) = length es.
Proof.
  simpl. destruct (build_state_built es) as [paths Hb].
  pose proof (built_tree _ _ _ Hb) as Ht. split.
  - intros n. unfold reachable. rewrite <- (inv_length _ _ Ht). split.
    + intros [toks Hw]. apply (walk_paths _ _ _ _ Ht) in Hw. by eapply lookup_lt_Some.
    + intros [toks Hn]%lookup_lt_is_Some. exists toks. by apply (walk_paths _ _ _ _ Ht).
  - apply (built_total _ _ _ Hb).
Qed.

(** C7. The finished structure is a tree: every node of the store is reached
    from the root by exactly one token sequence, no node is the child of two
    nodes or under two tokens, and the root is nobody's child; two prefixes
    of entities' token sequences lead to the same node exactly when they are
    the same sequence; so two entities that share a prefix and then differ
    pass through the same nodes along that prefix and through different
    nodes from the first differing token on. *)
Theorem trie_is_a_tree (es : list Entity) (lg : logger) :
  let T := (build_trie es lg).2 in
  (forall n, n < length (nodes T) ->
     exists toks, walk (nodes T) (root T) toks = Some n /\
                  forall toks', walk (nodes T) (root T) toks' = Some n -> toks' = toks) /\
  (forall n1 n2 t1 t2 c, n1 < length (nodes T) -> n2 < length (nodes T) ->
     children (nodes T !!! n1) !! t1 = Some c ->
     children (nodes T !!! n2) !! t2 = Some c ->
     n1 = n2 /\ t1 = t2 /\ c <> root T) /\
  (forall e1 e2 k1 k2, In e1 es -> In e2 es ->
     exists n1 n2,
       walk (nodes T) (root T) (take k1 (tokens e1)) = Some n1 /\
       walk (nodes T) (root T) (take k2 (tokens e2)) = Some n2 /\
       (n1 = n2 <-> take k1 (tokens e1) = take k2 (tokens e2))) /\
  (forall e1 e2 p t1 r1 t2 r2, In e1 es -> In e2 es ->
     tokens e1 = p ++ t1 :: r1 -> tokens e2 = p ++ t2 :: r2 -> t1 <> t2 ->
     (forall k, k <= length p ->
        exists n, walk (nodes T) (root T) (take k (tokens e1)) = Some n /\
                  walk (nodes T) (root T) (take k (tokens e2)) = Some n) /\
     (forall s1 s2, s1 `prefix_of` r1 -> s2 `prefix_of` r2 ->
        exists n1 n2, walk (nodes T) (root T) (p ++ t1 :: s1) = Some n1 /\
                      walk (nodes T) (root T) (p ++ t2 :: s2) = Some n2 /\
                      n1 <> n2)).
Proof.
  simpl. destruct (build_state_built es) as [paths Hb].
  pose proof (built_tree _ _ _ Hb) as Ht.
  set (h := heap (build_state es)) in *.
  assert (Hpre : forall e toks rest, e ∈ es -> tokens e = toks ++ rest ->
                   exists n, walk h 0 toks = Some n).
  { intros e toks rest He Htoks.
    destruct (built_walk _ _ _ _ Hb He) as (n & Hw & _). fold h in Hw.
    rewrite Htoks, walk_app in Hw.
    destruct (walk h 0 toks) as [m|]; [by eauto|done]. }
  assert (Hinj : forall toks1 toks2 n1 n2,
            walk h 0 toks1 = Some n1 -> walk h 0 toks2 = Some n2 ->
            n1 = n2 <-> toks1 = toks2).
  { intros toks1 toks2 n1 n2 H1 H2. split; [|intros ->; congruence].
    intros ->. apply (walk_paths _ _ _ _ Ht) in H1, H2. congruence. }
  split_and!.
  - intros n Hn. rewrite <- (inv_length _ _ Ht) in Hn.
    apply lookup_lt_is_Some in Hn as [toks Hn]. exists toks. split.
    + by apply (walk_paths _ _ _ _ Ht).
    + intros toks' Hw. apply (walk_paths _ _ _ _ Ht) in Hw. congruence.
  - intros n1 n2 t1 t2 c Hn1 Hn2 Hc1 Hc2.
    apply (inv_edge _ _ Ht) in Hc1 as (p1 & Hp1 & Hq1); [|done].
    apply (inv_edge _ _ Ht) in Hc2 as (p2 & Hp2 & Hq2); [|done].
    assert (p1 ++ [t1] = p2 ++ [t2]) as [-> ->]%app_inj_tail by congruence.
    split_and!; [|done|].
    + exact (NoDup_lookup _ _ _ _ (inv_nodup _ _ Ht) Hp1 Hp2).
    + intros ->. rewrite (inv_root _ _ Ht) in Hq1. by destruct p2.
  - intros e1 e2 k1 k2 He1%list_elem_of_In He2%list_elem_of_In.
    destruct (Hpre e1 (take k1 (tokens e1)) (drop k1 (tokens e1)) He1) as [n1 H1];
      [by rewrite take_drop|].
    destruct (Hpre e2 (take k2 (tokens e2)) (drop k2 (tokens e2)) He2) as [n2 H2];
      [by rewrite take_drop|].
    exists n1, n2. split_and!; [done..|]. by apply Hinj.
  - intros e1 e2 p t1 r1 t2 r2 He1%list_elem_of_In He2%list_elem_of_In Htok1 Htok2 Hne.
    split.
    + intros k Hk.
      destruct (Hpre e1 (take k p) (drop k p ++ t1 :: r1) He1) as [n Hw].
      { by rewrite Htok1, app_assoc, take_drop. }
      exists n. by rewrite Htok1, Htok2, !take_app_le.
    + intros s1 s2 [u1 ->] [u2 ->].
      destruct (Hpre e1 (p ++ t1 :: s1) u1 He1) as [n1 H1].
      { by rewrite Htok1, <- app_assoc. }
      destruct (Hpre e2 (p ++ t2 :: s2) u2 He2) as [n2 H2].
      { by rewrite Htok2, <- app_assoc. }
      exists n1, n2. split_and!; [done..|].
      intros Heq. apply (Hinj _ _ _ _ H1 H2) in Heq.
      apply app_inv_head in Heq. congruence.
Qed.

Lemma trie_is_a_tree_witness :
  let es := [north_sea; north_bay] in
  let T := (build_trie es []).2 in
  (In north_sea es /\ In north_bay es /\
   tokens north_sea = ["North"] ++ "Sea" :: [] /\
   tokens north_bay = ["North"] ++ "Bay" :: ["East"] /\ "Sea" <> "Bay") /\
  (exists n, walk (nodes T) (root T) (take 1 (tokens north_sea)) = Some n /\
             walk (nodes T) (root T) (take 1 (tokens north_bay)) = Some n) /\
  (exists n1 n2, walk (nodes T) (root T) (["North"] ++ "Sea" :: []) = Some n1 /\
                 walk (nodes T) (root T) (["North"] ++ "Bay" :: ["East"]) = Some n2 /\
                 n1 <> n2).
Proof.
  assert (H1 : In north_sea [north_sea; north_bay]) by (simpl; auto).
  assert (H2 : In north_bay [north_sea; north_bay]) by (simpl; auto).
  assert (H3 : tokens north_sea = ["North"] ++ "Sea" :: []) by reflexivity.
  assert (H4 : tokens north_bay = ["North"] ++ "Bay" :: ["East"]) by reflexivity.
  assert (H5 : "Sea" <> "Bay") by discriminate.
  pose proof (trie_is_a_tree [north_sea; north_bay] []) as (_ & _ & _ & Hdiv).
  destruct (Hdiv _ _ _ _ _ _ _ H1 H2 H3 H4 H5) as [Hsame Hdiff].
  split; [done|]. split.
  - apply (Hsame 1). simpl. lia.
  - by apply Hdiff.
Defined.

(** C10. An entity with an empty token list is not rejected: the loop over
    its tokens does nothing and its identifier is appended to the [ids] of
    the root, which thereby becomes a terminal node. *)
Theorem empty_tokens_land_on_root (l1 l2 : list Entity) (i : string) (lg : logger) :
  let e := mkEntity [] i in
  let before := build_state l1 in
  let after := build_state (l1 ++ [e]) in
  let T := (build_trie (l1 ++ e :: l2) lg).2 in
  (ids (heap after !!! 0) = ids (heap before !!! 0) ++ [i] /\
   length (heap after) = length (heap before) /\
   forall m, m <> 0 -> heap after !!! m = heap before !!! m) /\
  walk (nodes T) (root T) (tokens e) = Some (root T) /\
  In i (ids (nodes T !!! root T)).
Proof.
  simpl. split_and!.
  - rewrite build_state_snoc. unfold for_entity. simpl.
    rewrite ids_alter_append_id. rewrite decide_True; [done|].
    destruct (build_state_built l1) as [paths Hb].
    split; [done|]. rewrite <- (inv_length _ _ (built_tree _ _ _ Hb)).
    eapply lookup_lt_Some, (inv_root _ _ (built_tree _ _ _ Hb)).
  - rewrite build_state_snoc. unfold for_entity. simpl. by rewrite length_alter.
  - intros m Hm. rewrite build_state_snoc. unfold for_entity. simpl.
    by rewrite list_lookup_total_alter_ne.
  - done.
  - destruct (build_state_built (l1 ++ mkEntity [] i :: l2)) as [paths Hb].
    rewrite (built_ids _ _ _ Hb 0 []) by apply (inv_root _ _ (built_tree _ _ _ Hb)).
    apply list_elem_of_In, (list_elem_of_fmap_2' _ _ (mkEntity [] i)); [|done].
    apply list_elem_of_filter. split; [done|]. apply elem_of_app. right. left.
Qed.

(** ** Properties of the entity loader *)

Lemma fields_no_lf text line f :
  line ∈ readlines text -> f ∈ fields line -> has_char LF f = false.
Proof.
  intros Hline Hf. destruct (has_char LF f) eqn:E; [|done].
  pose proof (split_on_has_char _ _ _ _ Hf E) as Hc.
  by rewrite (readlines_no_lf _ _ Hline) in Hc.
Qed.

Lemma elem_of_tail {A} (x : A) l : x ∈ tail l -> x ∈ l.
Proof. destruct l; simpl; [done|]. by right. Qed.

Lemma loop_body_fields names pat types st line mrgid geo_name language place_type :
  fields line = [mrgid; geo_name; language; place_type] ->
  loop_body names pat types st line =
    if excluded_by names pat types geo_name place_type
    then log_to DEBUG ("skipping: " +:+ rstrip LF line) st
    else append_entity (mkEntity (split_ws geo_name) mrgid) st.
Proof. unfold fields, loop_body. by intros ->. Qed.

Lemma append_entity_not_log e lv msg st : append_entity e st <> log_to lv msg st.
Proof.
  unfold append_entity, log_to. intros [= He _].
  apply (f_equal length) in He. rewrite length_app in He. simpl in He. lia.
Qed.

(** C3. A well-formed record of the file is skipped by the filter exactly
    when its place type is in the skipped place types, or its name is one
    of the skipped names, or its name is one or more uppercase letters, then
    a digit, then uppercase letters or digits.  A record named "As" is
    skipped whatever its place type, and a record named "H2" is skipped by
    the pattern. *)
Theorem filter_rule (names types : gset string) (text line : string) (st : loader)
    (mrgid geo_name language place_type : string) :
  In line (tail (readlines text)) ->
  fields line = [mrgid; geo_name; language; place_type] ->
  (loop_body names SKIPPED_GEO_NAMES_PAT types st line
     = log_to DEBUG ("skipping: " +:+ rstrip LF line) st
   <-> place_type ∈ types \/ geo_name ∈ names \/ code_like geo_name) /\
  (geo_name = "As" ->
   loop_body SKIPPED_GEO_NAMES SKIPPED_GEO_NAMES_PAT types st line
     = log_to DEBUG ("skipping: " +:+ rstrip LF line) st) /\
  (geo_name = "H2" ->
   re_match SKIPPED_GEO_NAMES_PAT geo_name = true /\
   loop_body names SKIPPED_GEO_NAMES_PAT types st line
     = log_to DEBUG ("skipping: " +:+ rstrip LF line) st).
Proof.
  intros Hline%list_elem_of_In%elem_of_tail Hf.
  assert (Hlf : has_char LF geo_name = false).
  { apply (fields_no_lf text line); [done|]. rewrite Hf. right. left. }
  split_and!.
  - rewrite (loop_body_fields _ _ _ _ _ _ _ _ _ Hf). unfold excluded_by.
    rewrite <- (pat_match_no_lf _ Hlf).
    destruct (bool_decide _ || bool_decide _ || re_match _ _) eqn:E.
    + split; [intros _|done].
      apply orb_true_iff in E as [[E|E]%orb_true_iff|E];
        rewrite ?bool_decide_eq_true in E; auto.
    + split; [by intros ?%append_entity_not_log|].
      apply orb_false_iff in E as [[E1 E2]%orb_false_iff E3].
      rewrite bool_decide_eq_false in E1, E2. intros [?|[?|?]]; [done|done|congruence].
  - intros ->. rewrite (loop_body_fields _ _ _ _ _ _ _ _ _ Hf). unfold excluded_by.
    replace (bool_decide ("As" ∈ SKIPPED_GEO_NAMES)) with true by reflexivity.
    by rewrite orb_true_r.
  - intros ->. split; [reflexivity|].
    rewrite (loop_body_fields _ _ _ _ _ _ _ _ _ Hf). unfold excluded_by.
    replace (re_match SKIPPED_GEO_NAMES_PAT "H2") with true by reflexivity.
    by rewrite orb_true_r.
Qed.

Lemma filter_rule_witness :
  (In h2_line (tail (readlines sample_text)) /\
   fields h2_line = ["7"; "H2"; "en"; "Sea"]) /\
  (loop_body SKIPPED_GEO_NAMES SKIPPED_GEO_NAMES_PAT SKIPPED_PLACE_TYPES
     (mkLoader [] []) h2_line
     = log_to DEBUG ("skipping: " +:+ rstrip LF h2_line) (mkLoader [] [])
   <-> "Sea" ∈ SKIPPED_PLACE_TYPES \/ "H2" ∈ SKIPPED_GEO_NAMES \/ code_like "H2").
Proof.
  assert (H1 : In h2_line (tail (readlines sample_text))).
  { vm_compute. tauto. }
  assert (H2 : fields h2_line = ["7"; "H2"; "en"; "Sea"]) by reflexivity.
  split; [done|].
  apply (filter_rule SKIPPED_GEO_NAMES SKIPPED_PLACE_TYPES sample_text h2_line
           (mkLoader [] []) "7" "H2" "en" "Sea" H1 H2).
Defined.

(** C4. A line after the header that does not have exactly four
    tab-separated fields yields no entity and does not stop the loader: the
    loader returns, its entities are those of the lines before followed by
    those of the lines after, and the line is reported. *)
Theorem malformed_line_is_skipped (names : gset string) (pat : regex) (types : gset string)
    (fs : gmap string string) (csv_fname text : string) (lg : logger)
    (before : list string) (line : string) (after : list string) :
  fs !! csv_fname = Some text ->
  tail (readlines text) = before ++ line :: after ->
  length (split_on TAB (rstrip LF line)) <> 4 ->
  exists lg',
    read_mr_entities names pat types fs csv_fname lg
      = (lg', Some (loaded names pat types before ++ loaded names pat types after)) /\
    In (WARNING, "ill-formed line: " +:+ rstrip LF line) lg'.
Proof.
  intros Hfs Hlines Hbad.
  destruct (read_mr_entities_text names pat types fs csv_fname text lg Hfs)
    as (lg' & Hread & Hdiag).
  exists lg'. split.
  - rewrite Hread, Hlines, !loaded_omap, omap_app. simpl.
    assert (retained names pat types line = None) as ->; [|done].
    unfold retained, fields.
    by destruct (split_on TAB (rstrip LF line)) as [|f1 [|f2 [|f3 [|f4 [|f5 l]]]]].
  - apply list_elem_of_In, Hdiag. rewrite Hlines, map_app, concat_app. simpl.
    apply elem_of_app. right. apply elem_of_app. left.
    unfold diagnostic, malformed, fields.
    apply Nat.eqb_neq in Hbad. rewrite Hbad. simpl. left.
Qed.

Lemma malformed_line_is_skipped_witness :
  (sample_fs !! "mr.csv" = Some sample_text /\
   tail (readlines sample_text)
     = firstn 4 (tail (readlines sample_text)) ++ bad_line :: [blank_line] /\
   length (split_on TAB (rstrip LF bad_line)) <> 4) /\
  exists lg',
    read_mr_entities SKIPPED_GEO_NAMES SKIPPED_GEO_NAMES_PAT SKIPPED_PLACE_TYPES
      sample_fs "mr.csv" []
      = (lg', Some (loaded SKIPPED_GEO_NAMES SKIPPED_GEO_NAMES_PAT SKIPPED_PLACE_TYPES
                      (firstn 4 (tail (readlines sample_text)))
                    ++ loaded SKIPPED_GEO_NAMES SKIPPED_GEO_NAMES_PAT SKIPPED_PLACE_TYPES
                      [blank_line])) /\
    In (WARNING, "ill-formed line: " +:+ rstrip LF bad_line) lg'.
Proof.
  assert (H1 : sample_fs !! "mr.csv" = Some sample_text) by reflexivity.
  assert (H2 : tail (readlines sample_text)
               = firstn 4 (tail (readlines sample_text)) ++ bad_line :: [blank_line])
    by reflexivity.
  assert (H3 : length (split_on TAB (rstrip LF bad_line)) <> 4) by (vm_compute; lia).
  split; [done|].
  apply (malformed_line_is_skipped SKIPPED_GEO_NAMES SKIPPED_GEO_NAMES_PAT
           SKIPPED_PLACE_TYPES sample_fs "mr.csv" sample_text [] _ _ _ H1 H2 H3).
Defined.

(** C8. What the loader decides for a record depends on the record and the
    filter parameters only: there is one list [d] of at most one entity and
    one diagnostic [dl] such that, whatever the loader has read before, the
    record adds exactly [d] and [dl]; so in every run the record contributes
    [d], whatever lines come before or after it. *)
Theorem filter_is_order_independent (names : gset string) (pat : regex) (types : gset string)
    (line : string) :
  exists d dl,
    length d <= 1 /\
    (forall st, loop_body names pat types st line
                = {| entities := entities st ++ d; log := log st ++ dl |}) /\
    (forall before after,
       loaded names pat types (before ++ line :: after)
       = loaded names pat types before ++ d ++ loaded names pat types after).
Proof.
  exists (option_list (retained names pat types line)), (diagnostic names pat types line).
  split_and!.
  - destruct (retained names pat types line); simpl; lia.
  - intros st. apply loop_body_effect.
  - intros before after. rewrite !loaded_omap, omap_app. simpl.
    by destruct (retained names pat types line).
Qed.

(** C9. The loader returns the entities of the retained records in the
    order of the records, and their number is the number of lines of the
    file minus the header, minus the skipped records, minus the malformed
    records. *)
Theorem loader_keeps_order_and_count (names : gset string) (pat : regex) (types : gset string)
    (fs : gmap string string) (csv_fname text : string) (lg : logger) :
  fs !! csv_fname = Some text ->
  let records := tail (readlines text) in
  exists lg' es,
    read_mr_entities names pat types fs csv_fname lg = (lg', Some es) /\
    es = omap (retained names pat types) records /\
    length es + count (skipped names pat types) records
      + count (malformed) records = length records /\
    length es = length (readlines text) - 1
                - count (skipped names pat types) records
                - count (malformed) records.
Proof.
  intros Hfs records.
  destruct (read_mr_entities_text names pat types fs csv_fname text lg Hfs)
    as (lg' & Hread & _).
  exists lg', (omap (retained names pat types) records).
  pose proof (count_partition names pat types records) as Hcount.
  assert (Hlen : length records = length (readlines text) - 1).
  { unfold records. destruct (readlines text); simpl; lia. }
  split_and!; [by rewrite Hread, loaded_omap|done|lia|lia].
Qed.

Lemma loader_keeps_order_and_count_witness :
  sample_fs !! "mr.csv" = Some sample_text /\
  exists lg' es,
    read_mr_entities SKIPPED_GEO_NAMES SKIPPED_GEO_NAMES_PAT SKIPPED_PLACE_TYPES
      sample_fs "mr.csv" [] = (lg', Some es) /\
    es = omap (retained SKIPPED_GEO_NAMES SKIPPED_GEO_NAMES_PAT SKIPPED_PLACE_TYPES)
           (tail (readlines sample_text)) /\
    length es
      + count (skipped SKIPPED_GEO_NAMES SKIPPED_GEO_NAMES_PAT SKIPPED_PLACE_TYPES)
          (tail (readlines sample_text))
      + count malformed (tail (readlines sample_text))
      = length (tail (readlines sample_text)) /\
    length es = length (readlines sample_text) - 1
                - count (skipped SKIPPED_GEO_NAMES SKIPPED_GEO_NAMES_PAT SKIPPED_PLACE_TYPES)
                    (tail (readlines sample_text))
                - count malformed (tail (readlines sample_text)).
Proof.
  assert (H1 : sample_fs !! "mr.csv" = Some sample_text) by reflexivity.
  split; [done|].
  apply (loader_keeps_order_and_count SKIPPED_GEO_NAMES SKIPPED_GEO_NAMES_PAT
           SKIPPED_PLACE_TYPES sample_fs "mr.csv" sample_text [] H1).
Defined.

Lemma space_not_upper a : isspace a = true -> is_upper a = false.
Proof. destruct a as [[] [] [] [] [] [] [] []]; vm_compute; congruence. Qed.

Lemma code_like_not_blank s : str_all isspace s = true -> ~ code_like s.
Proof.
  intros Hs (u & d & r & -> & Hne & Hu & _).
  destruct u as [|a u]; [done|].
  rewrite append_cons in Hs.
  change (isspace a && str_all isspace (u +:+ String d r) = true) in Hs.
  change (is_upper a && str_all is_upper u = true) in Hu.
  apply andb_true_iff in Hs as [Ha _]. apply andb_true_iff in Hu as [Hup _].
  rewrite (space_not_upper a Ha) in Hup. done.
Qed.

(** C2, the claim as stated fails: the record of [sample_text] whose name is
    two spaces is not skipped, the loader emits an entity with no token
    for it. *)
Lemma whitespace_name_is_emitted :
  fields blank_line = ["10"; "  "; "en"; "Sea"] /\
  (read_mr_entities SKIPPED_GEO_NAMES SKIPPED_GEO_NAMES_PAT SKIPPED_PLACE_TYPES
     sample_fs "mr.csv" []).2
    = Some [north_sea; north_sea_canal; mkEntity [] "10"] /\
  ~ (forall es e,
       (read_mr_entities SKIPPED_GEO_NAMES SKIPPED_GEO_NAMES_PAT SKIPPED_PLACE_TYPES
          sample_fs "mr.csv" []).2 = Some es ->
       In e es -> tokens e <> []).
Proof.
  assert (Hrun : (read_mr_entities SKIPPED_GEO_NAMES SKIPPED_GEO_NAMES_PAT
                    SKIPPED_PLACE_TYPES sample_fs "mr.csv" []).2
                 = Some [north_sea; north_sea_canal; mkEntity [] "10"])
    by (vm_compute; reflexivity).
  split_and!; [reflexivity|exact Hrun|].
  intros H. apply (H _ (mkEntity [] "10") Hrun); [simpl; auto|reflexivity].
Qed.

(** C2, amended. Every entity the loader emits comes from a well-formed
    record of the file and carries the whitespace-separated words of its
    name: no token is empty or contains whitespace, and the token list is
    empty exactly when the name is empty or all whitespace.  Such a record
    is not skipped for that reason: unless an exclusion rule applies, it is
    emitted with an empty token list; with the module's names and pattern
    no rule but the place type can apply to it. *)
Theorem emitted_tokens (names : gset string) (pat : regex) (types : gset string)
    (fs : gmap string string) (csv_fname text : string) (lg lg' : logger)
    (es : list Entity) :
  fs !! csv_fname = Some text ->
  read_mr_entities names pat types fs csv_fname lg = (lg', Some es) ->
  (forall e, In e es ->
     (forall t, In t (tokens e) -> t <> EmptyString /\ str_all not_space t = true) /\
     exists line mrgid geo_name language place_type,
       In line (tail (readlines text)) /\
       fields line = [mrgid; geo_name; language; place_type] /\
       e = mkEntity (split_ws geo_name) mrgid /\
       (tokens e = [] <-> str_all isspace geo_name = true)) /\
  (forall line mrgid geo_name language place_type,
     In line (tail (readlines text)) ->
     fields line = [mrgid; geo_name; language; place_type] ->
     str_all isspace geo_name = true ->
     excluded_by names pat types geo_name place_type = false ->
     In (mkEntity [] mrgid) es) /\
  (forall line mrgid geo_name language place_type,
     In line (tail (readlines text)) ->
     fields line = [mrgid; geo_name; language; place_type] ->
     str_all isspace geo_name = true ->
     excluded_by SKIPPED_GEO_NAMES SKIPPED_GEO_NAMES_PAT types geo_name place_type
       = bool_decide (place_type ∈ types)).
Proof.
  intros Hfs Hread.
  destruct (read_mr_entities_text names pat types fs csv_fname text lg Hfs)
    as (lg0 & Hread0 & _).
  rewrite Hread0 in Hread. injection Hread as _ <-. rewrite loaded_omap.
  split_and!.
  - intros e (line & Hline & Hret)%list_elem_of_In%list_elem_of_omap.
    unfold retained in Hret.
    destruct (fields line) as [|f1 [|f2 [|f3 [|f4 [|f5 l]]]]] eqn:Hf; try done.
    destruct (excluded_by names pat types f2 f4); [done|]. injection Hret as <-.
    split.
    + intros t Ht%list_elem_of_In. by apply (split_ws_tokens f2).
    + exists line, f1, f2, f3, f4. split_and!; [by apply list_elem_of_In|done..|].
      simpl. apply split_ws_nil.
  - intros line mrgid geo_name language place_type Hline%list_elem_of_In Hf Hsp Hex.
    apply list_elem_of_In, list_elem_of_omap. exists line. split; [done|].
    unfold retained. rewrite Hf, Hex. by apply split_ws_nil in Hsp as ->.
  - intros line mrgid geo_name language place_type Hline%list_elem_of_In%elem_of_tail Hf Hsp.
    unfold excluded_by.
    assert (Hlf : has_char LF geo_name = false).
    { apply (fields_no_lf text line); [done|]. rewrite Hf. right. left. }
    assert (re_match SKIPPED_GEO_NAMES_PAT geo_name = false) as ->.
    { apply not_true_is_false. rewrite (pat_match_no_lf _ Hlf).
      by apply code_like_not_blank. }
    assert (bool_decide (geo_name ∈ SKIPPED_GEO_NAMES) = false) as ->.
    { apply bool_decide_eq_false. unfold SKIPPED_GEO_NAMES. intros Hin.
      assert (geo_name = "As" \/ geo_name = "Of") as [-> | ->] by set_solver;
        by vm_compute in Hsp. }
    by rewrite !orb_false_r.
Qed.

Lemma emitted_tokens_witness :
  (sample_fs !! "mr.csv" = Some sample_text /\
   read_mr_entities SKIPPED_GEO_NAMES SKIPPED_GEO_NAMES_PAT SKIPPED_PLACE_TYPES
     sample_fs "mr.csv" []
   = ([(INFO, "reading entities from file mr.csv");
       (DEBUG, "skipping: " +:+ "72M7" +:+ tab +:+ "FAO Code" +:+ tab +:+ "en" +:+ tab
                 +:+ "FAO Subdivisions");
       (DEBUG, "skipping: " +:+ rstrip LF h2_line);
       (WARNING, "ill-formed line: " +:+ rstrip LF bad_line);
       (INFO, "3 entites")],
      Some [north_sea; north_sea_canal; mkEntity [] "10"]) /\
   In blank_line (tail (readlines sample_text)) /\
   fields blank_line = ["10"; "  "; "en"; "Sea"] /\
   str_all isspace "  " = true /\
   excluded_by SKIPPED_GEO_NAMES SKIPPED_GEO_NAMES_PAT SKIPPED_PLACE_TYPES "  " "Sea"
     = false) /\
  In (mkEntity [] "10") [north_sea; north_sea_canal; mkEntity [] "10"].
Proof.
  assert (H1 : sample_fs !! "mr.csv" = Some sample_text) by reflexivity.
  assert (H2 : read_mr_entities SKIPPED_GEO_NAMES SKIPPED_GEO_NAMES_PAT SKIPPED_PLACE_TYPES
                 sample_fs "mr.csv" []
               = ([(INFO, "reading entities from file mr.csv");
                   (DEBUG, "skipping: " +:+ "72M7" +:+ tab +:+ "FAO Code" +:+ tab +:+ "en"
                             +:+ tab +:+ "FAO Subdivisions");
                   (DEBUG, "skipping: " +:+ rstrip LF h2_line);
                   (WARNING, "ill-formed line: " +:+ rstrip LF bad_line);
                   (INFO, "3 entites")],
                  Some [north_sea; north_sea_canal; mkEntity [] "10"]))
    by (vm_compute; reflexivity).
  assert (H3 : In blank_line (tail (readlines sample_text))) by (vm_compute; tauto).
  assert (H4 : fields blank_line = ["10"; "  "; "en"; "Sea"]) by reflexivity.
  assert (H5 : str_all isspace "  " = true) by reflexivity.
  assert (H6 : excluded_by SKIPPED_GEO_NAMES SKIPPED_GEO_NAMES_PAT SKIPPED_PLACE_TYPES
                 "  " "Sea" = false) by (vm_compute; reflexivity).
  split; [done|].
  destruct (emitted_tokens SKIPPED_GEO_NAMES SKIPPED_GEO_NAMES_PAT SKIPPED_PLACE_TYPES
              sample_fs "mr.csv" sample_text [] _ _ H1 H2) as (_ & Hblank & _).
  exact (Hblank blank_line "10" "  " "en" "Sea" H3 H4 H5 H6).
Defined.

(** ** The example of the gazetteer with "North Sea" *)

Example north_sea_example :
  (read_mr_entities SKIPPED_GEO_NAMES SKIPPED_GEO_NAMES_PAT SKIPPED_PLACE_TYPES
     {[ "mr.csv" :=
          header +:+
          "1001" +:+ tab +:+ "North Sea" +:+ tab +:+ "en" +:+ tab +:+ "Sea" +:+ nl +:+
          "1002" +:+ tab +:+ "North Sea Canal" +:+ tab +:+ "en" +:+ tab +:+ "Waterway" +:+ nl +:+
          "72M7" +:+ tab +:+ "FAO Code" +:+ tab +:+ "en" +:+ tab +:+ "FAO Subdivisions" +:+ nl ]}
     "mr.csv" []).2
    = Some [north_sea; north_sea_canal] /\
  (build_trie [north_sea; north_sea_canal] []).2
    = {| root := 0;
         nodes := [ mkNode [] {[ "North" := 1 ]};
                    mkNode [] {[ "Sea" := 2 ]};
                    mkNode ["1001"] {[ "Canal" := 3 ]};
                    mkNode ["1002"] ∅ ] |}.
Proof. split; vm_compute; reflexivity. Qed.
